(** * AfterPoundExprCompletion: the solution collector and its presenter

    A shallow embedding of [lib/IDE/AfterPoundExprCompletion.cpp]:

    - [sawSolutionImpl] records one [Result] per structurally distinct
      expected type, over the object's [Results] vector;
    - [deliverResults] drives a local [CompletionLookup] engine, once per
      recorded result, and hands it to [deliverCompletionResults].

    The type checker, the lookup engine and the delivery routine live in
    other files of the compiler.  They enter as the variables of the
    section below; the two member functions are translated statement by
    statement on top of them. *)

From stdpp Require Import base option list.

Set Default Proof Using "Type".

(** ** Outcomes of a call that may dereference a null [Type]

    [swift::Type] wraps a [TypeBase *] that may be null, and [operator->]
    hands out that pointer unchecked.  A call either runs to its end or
    stops at the dereference of a null type. *)

Inductive exec (A : Type) : Type :=
| Done (a : A)
| NullDereference.
Arguments Done {A} a.
Arguments NullDereference {A}.

Definition exec_bind {A B : Type} (f : A → exec B) (m : exec A) : exec B :=
  match m with
  | Done a => f a
  | NullDereference => NullDereference
  end.

#[global] Instance exec_mret : MRet exec := @Done.
#[global] Instance exec_mbind : MBind exec := @exec_bind.

(** [llvm::any_of(Range, P)] is [std::any_of]: it applies [P] from the
    front and stops at the first element on which [P] is true.  Here [P]
    may stop on a null dereference, which then ends the scan as well. *)
Fixpoint any_of {A : Type} (Range : list A) (P : A → exec bool) : exec bool :=
  match Range with
  | [] => Done false
  | x :: Range' =>
      match P x with
      | Done true => Done true
      | Done false => any_of Range' P
      | NullDereference => NullDereference
      end
  end.

Section AfterPoundExprCompletion.

(** *** Collaborators declared outside this file *)

Context {TypeBase Solution ConstraintSystem Expr DeclContext StmtKind : Type}.

(** [swift::Type]: a possibly null pointer to a [TypeBase]. *)
Definition swift_Type : Type := option TypeBase.

(** [operator->] of [swift::Type]. *)
Definition arrow (T : swift_Type) : exec TypeBase :=
  match T with
  | Some P => Done P
  | None => NullDereference
  end.

Variable getConstraintSystem : Solution → ConstraintSystem.
Variable getTypeForCompletion : Solution → Expr → swift_Type.
Variable isContextAsync : Solution → DeclContext → bool.
Variable isImplicitSingleExpressionReturn : ConstraintSystem → Expr → bool.

(** [bool TypeBase::isEqual(Type Other)]: equality of types that ignores
    sugar.  It is a member of the pointee, so the receiver is a
    [TypeBase]; its argument is a [Type]. *)
Variable isEqual : TypeBase → swift_Type → bool.

(** Structural equality is an equivalence; the two laws the collector's
    properties rest on are assumed where they are used. *)
Hypothesis isEqual_sym :
  ∀ A B : TypeBase, isEqual A (Some B) = isEqual B (Some A).
Hypothesis isEqual_trans :
  ∀ A B C : TypeBase,
    isEqual A (Some B) = true → isEqual B (Some C) = true →
    isEqual A (Some C) = true.

(** *** Data model *)

(** Modelled from the spec: the declaration of [struct Result] is in the
    header; the source shows its three fields in order, through the
    aggregate [{ExpectedTy, SingleExprBody, IsAsync}], and names the
    first two. *)
Record Result : Type := mkResult {
  ExpectedTy : swift_Type;
  IsImplicitSingleExpressionReturn : bool;
  IsAsync : bool
}.

(** The members of the object that the two functions read or write.
    [StmtKind] stands for the declared type of the member
    [ParentStmtKind], which is only passed on. *)
Record AfterPoundExprCompletion : Type := mkAfterPoundExprCompletion {
  CompletionExpr : Expr;
  DC : DeclContext;
  ParentStmtKind : StmtKind;
  Results : list Result
}.

(** [Results.push_back(R)] *)
Definition push_back (this : AfterPoundExprCompletion) (R : Result)
  : AfterPoundExprCompletion :=
  {| CompletionExpr := CompletionExpr this;
     DC := DC this;
     ParentStmtKind := ParentStmtKind this;
     Results := Results this ++ [R] |}.

(** *** [AfterPoundExprCompletion::sawSolutionImpl] *)

(** The closure [IsEqual] of [sawSolutionImpl], with the variable it
    captures, [ExpectedTy], as a parameter:
    [R.ExpectedTy->isEqual(ExpectedTy)]. *)
Definition IsEqual (ExpectedTy' : swift_Type) (R : Result) : exec bool :=
  P ← arrow (ExpectedTy R); mret (isEqual P ExpectedTy').

Definition sawSolutionImpl (this : AfterPoundExprCompletion) (S : Solution)
  : exec AfterPoundExprCompletion :=
  let CS := getConstraintSystem S in
  let ExpectedTy' := getTypeForCompletion S (CompletionExpr this) in
  let IsAsync' := isContextAsync S (DC this) in
  (* If ExpectedTy is a duplicate of any other result, ignore this
     solution. *)
  Found ← any_of (Results this) (IsEqual ExpectedTy');
  if negb Found then
    let SingleExprBody :=
      isImplicitSingleExpressionReturn CS (CompletionExpr this) in
    mret (push_back this (mkResult ExpectedTy' SingleExprBody IsAsync'))
  else
    mret this.

(** The solver reports its solutions one after the other; a null
    dereference in one call ends the pass. *)
Fixpoint sawSolutions (this : AfterPoundExprCompletion) (Ss : list Solution)
  : exec AfterPoundExprCompletion :=
  match Ss with
  | [] => Done this
  | S0 :: Ss' => this' ← sawSolutionImpl this S0; sawSolutions this' Ss'
  end.

(** *** The lookup engine and the consumer, as [deliverResults] sees them

    [CompletionLookup] is declared elsewhere.  Its state is kept as the
    sequence of member calls it has received since it was constructed,
    oldest first, each with the arguments it was given. *)

Inductive LookupCall : Type :=
| shouldCheckForDuplicates (value : bool)
| setExpectedTypes (Types : list swift_Type)
    (isSingleExprBody : bool) (expectsNonVoid : bool)
| addPoundAvailable (ParentKind : StmtKind)
| addPoundLiteralCompletions (needPound : bool)
| addObjCPoundKeywordCompletions (needPound : bool)
| getMacroCompletions (needPound : bool).

(** What a call of [deliverResults] can touch: the object, the local
    variable [Lookup], and the consumer side, kept as the engines that
    [deliverCompletionResults] was handed so far. *)
Record Machine : Type := mkMachine {
  self : AfterPoundExprCompletion;
  Lookup : list LookupCall;
  Consumer : list (list LookupCall)
}.

Definition Run (A : Type) : Type := Machine → A * Machine.

#[local] Instance Run_mret : MRet Run := λ A a m, (a, m).
#[local] Instance Run_mbind : MBind Run :=
  λ A B f c m, let '(a, m') := c m in f a m'.

(** Reading a member of [*this]. *)
Definition member {A : Type} (field : AfterPoundExprCompletion → A) : Run A :=
  λ m, (field (self m), m).

(** [CompletionLookup Lookup(CompletionCtx.getResultSink(), Ctx, DC,
    &CompletionCtx)]: a new engine, which has received no call. *)
Definition construct_Lookup : Run unit :=
  λ m, (tt, mkMachine (self m) [] (Consumer m)).

(** [Lookup.f(args)] *)
Definition call (c : LookupCall) : Run unit :=
  λ m, (tt, mkMachine (self m) (Lookup m ++ [c]) (Consumer m)).

(** [deliverCompletionResults(CompletionCtx, Lookup, DC, Consumer)]: the
    engine, as it is at this point, goes to the consumer side. *)
Definition deliverCompletionResults : Run unit :=
  λ m, (tt, mkMachine (self m) (Lookup m) (Consumer m ++ [Lookup m])).

(** [for (auto &x : Range) Body] *)
Fixpoint for_each {A : Type} (Range : list A) (Body : A → Run unit)
  : Run unit :=
  match Range with
  | [] => mret tt
  | x :: Range' => Body x;; for_each Range' Body
  end.

(** *** [AfterPoundExprCompletion::deliverResults] *)

(** The body of its loop, for one element of [Results]. *)
Definition deliverResults_body (Result : Result) : Run unit :=
  Kind ← member ParentStmtKind;
  call (setExpectedTypes [ExpectedTy Result]
          (IsImplicitSingleExpressionReturn Result)
          (* expectsNonVoid = *) true);;
  call (addPoundAvailable Kind);;
  call (addPoundLiteralCompletions (* needPound = *) false);;
  call (addObjCPoundKeywordCompletions (* needPound = *) false);;
  call (getMacroCompletions (* needPound = *) false).

Definition deliverResults : Run unit :=
  construct_Lookup;;
  size ← member (λ this, length (Results this));
  call (shouldCheckForDuplicates (1 <? size));;
  Range ← member Results;
  for_each Range deliverResults_body;;
  deliverCompletionResults.

(** ** The vocabulary of the properties *)

(** No stored expected type is null. *)
Definition NonNullTypes (Rs : list Result) : Prop :=
  Forall (λ R, is_Some (ExpectedTy R)) Rs.

(** Some stored expected type is structurally equal to [T]. *)
Definition Duplicate (Rs : list Result) (T : swift_Type) : Prop :=
  ∃ R P, R ∈ Rs ∧ ExpectedTy R = Some P ∧ isEqual P T = true.

(** No two entries, at different positions, have structurally equal
    expected types. *)
Definition NoDuplicateTypes (Rs : list Result) : Prop :=
  ∀ (i j : nat) (Ri Rj : Result) (Ti Tj : TypeBase),
    i ≠ j → Rs !! i = Some Ri → Rs !! j = Some Rj →
    ExpectedTy Ri = Some Ti → ExpectedTy Rj = Some Tj →
    isEqual Ti (Some Tj) = false.

(** The entry that a solution contributes when it is recorded. *)
Definition recorded (this : AfterPoundExprCompletion) (S : Solution) : Result :=
  mkResult (getTypeForCompletion S (CompletionExpr this))
    (isImplicitSingleExpressionReturn (getConstraintSystem S)
       (CompletionExpr this))
    (isContextAsync S (DC this)).

(** The object with another result list. *)
Definition with_Results (this : AfterPoundExprCompletion) (Rs : list Result)
  : AfterPoundExprCompletion :=
  mkAfterPoundExprCompletion (CompletionExpr this) (DC this)
    (ParentStmtKind this) Rs.

(** The calls that the presenter is said to make for one result: the
    expectation, then the four completion requests. *)
Definition per_result (Kind : StmtKind) (R : Result) : list LookupCall :=
  [ setExpectedTypes [ExpectedTy R] (IsImplicitSingleExpressionReturn R) true;
    addPoundAvailable Kind;
    addPoundLiteralCompletions false;
    addObjCPoundKeywordCompletions false;
    getMacroCompletions false ].

(** The duplicate-checking modes that an engine was given. *)
Definition duplicateModes (calls : list LookupCall) : list bool :=
  calls ≫= λ c,
    match c with shouldCheckForDuplicates value => [value] | _ => [] end.

(** The expectations that an engine was given. *)
Definition expectations (calls : list LookupCall)
  : list (list swift_Type * bool * bool) :=
  calls ≫= λ c,
    match c with
    | setExpectedTypes Types isSingleExprBody expectsNonVoid =>
        [(Types, isSingleExprBody, expectsNonVoid)]
    | _ => []
    end.

(** The calls that configure the engine, and those that request
    completions from it. *)
Definition is_configuration (c : LookupCall) : bool :=
  match c with
  | shouldCheckForDuplicates _ | setExpectedTypes _ _ _ => true
  | _ => false
  end.

Definition is_completion_request (c : LookupCall) : bool :=
  match c with
  | addPoundAvailable _ | addPoundLiteralCompletions _
  | addObjCPoundKeywordCompletions _ | getMacroCompletions _ => true
  | _ => false
  end.

(** The expected type that a solution has for the object. *)
Definition type_of (this : AfterPoundExprCompletion) (S : Solution)
  : swift_Type :=
  getTypeForCompletion S (CompletionExpr this).

(** Some solution of [Seen] has an expected type, for the completion
    expression [E], that is structurally equal to that of [S]. *)
Definition seen_before (E : Expr) (Seen : list Solution) (S : Solution)
  : bool :=
  existsb
    (λ S', match getTypeForCompletion S' E with
           | Some P => isEqual P (getTypeForCompletion S E)
           | None => false
           end)
    Seen.

(** The solutions of [Ss] whose expected type is not structurally equal
    to that of a solution reported before them, [Seen] being the solutions
    reported before [Ss]. *)
Fixpoint first_seen (E : Expr) (Seen Ss : list Solution) : list Solution :=
  match Ss with
  | [] => []
  | S0 :: Ss' =>
      if seen_before E Seen S0
      then first_seen E (Seen ++ [S0]) Ss'
      else S0 :: first_seen E (Seen ++ [S0]) Ss'
  end.

(** The stored entries come from solutions of [Seen], and every solution
    of [Seen] has a type that is not null and is that of a stored entry,
    or structurally equal to it. *)
Definition tracks (E : Expr) (Seen : list Solution) (Rs : list Result)
  : Prop :=
  (∀ R, R ∈ Rs → ∃ S', S' ∈ Seen ∧ ExpectedTy R = getTypeForCompletion S' E)
  ∧ (∀ S', S' ∈ Seen →
       ∃ P' R P, getTypeForCompletion S' E = Some P'
         ∧ R ∈ Rs ∧ ExpectedTy R = Some P
         ∧ (P = P' ∨ isEqual P (Some P') = true)).


(** A completion request is well made when it asks for no pound sign, an
    availability request when it names [Kind]. *)
Definition well_requested (Kind : StmtKind) (c : LookupCall) : Prop :=
  match c with
  | addPoundAvailable ParentKind => ParentKind = Kind
  | addPoundLiteralCompletions needPound
  | addObjCPoundKeywordCompletions needPound
  | getMacroCompletions needPound => needPound = false
  | _ => True
  end.

(** ** The scan of [sawSolutionImpl] *)

Lemma any_of_IsEqual_total (Rs : list Result) (T : swift_Type) :
  NonNullTypes Rs → ∃ b, any_of Rs (IsEqual T) = Done b.
Proof.
  induction 1 as [|R Rs [P HP] _ [b IH]]; simpl; [by eexists|].
  unfold IsEqual at 1. rewrite HP. simpl.
  destruct (isEqual P T); eauto.
Qed.

Lemma any_of_IsEqual_true (Rs : list Result) (T : swift_Type) :
  any_of Rs (IsEqual T) = Done true → Duplicate Rs T.
Proof.
  induction Rs as [|R Rs IH]; simpl; [done|].
  unfold IsEqual at 1.
  destruct (ExpectedTy R) as [P|] eqn:HP; simpl; [|done].
  destruct (isEqual P T) eqn:HE.
  - intros _. exists R, P. split_and!; [left|done|done].
  - intros (R' & P' & Hin & HP' & HE')%IH.
    exists R', P'. split_and!; [by right|done|done].
Qed.

Lemma any_of_IsEqual_false (Rs : list Result) (T : swift_Type) :
  any_of Rs (IsEqual T) = Done false →
  ∀ R, R ∈ Rs → ∃ P, ExpectedTy R = Some P ∧ isEqual P T = false.
Proof.
  induction Rs as [|R Rs IH]; simpl; intros Hscan R' Hin.
  - by apply elem_of_nil in Hin.
  - unfold IsEqual at 1 in Hscan.
    destruct (ExpectedTy R) as [P|] eqn:HP; simpl in Hscan; [|done].
    destruct (isEqual P T) eqn:HE; [done|].
    apply elem_of_cons in Hin as [->|Hin]; eauto.
Qed.

Lemma Duplicate_any_of (Rs : list Result) (T : swift_Type) :
  NonNullTypes Rs → Duplicate Rs T → any_of Rs (IsEqual T) = Done true.
Proof.
  intros Hnn Hdup.
  destruct (any_of_IsEqual_total Rs T Hnn) as [[|] Hscan]; [done|].
  destruct Hdup as (R & P & Hin & HP & HE).
  destruct (any_of_IsEqual_false Rs T Hscan R Hin) as (P' & HP' & HE').
  congruence.
Qed.

(** A null entry met by the scan stops the call. *)
Lemma any_of_IsEqual_null (Rs1 Rs2 : list Result) (R : Result) (T : swift_Type) :
  any_of Rs1 (IsEqual T) = Done false → ExpectedTy R = None →
  any_of (Rs1 ++ R :: Rs2) (IsEqual T) = NullDereference.
Proof.
  intros Hscan HR. induction Rs1 as [|R1 Rs1 IH]; simpl in *.
  - unfold IsEqual at 1. by rewrite HR.
  - destruct (IsEqual T R1) as [[|]|]; [done|by apply IH|done].
Qed.

(** ** The three ways a call of [sawSolutionImpl] ends *)

Lemma sawSolutionImpl_null_entry
    (this : AfterPoundExprCompletion) (S : Solution)
    (Rs1 Rs2 : list Result) (R : Result) :
  Results this = Rs1 ++ R :: Rs2 →
  any_of Rs1 (IsEqual (getTypeForCompletion S (CompletionExpr this)))
    = Done false →
  ExpectedTy R = None →
  sawSolutionImpl this S = NullDereference.
Proof.
  intros HRs Hscan HR. unfold sawSolutionImpl.
  by rewrite HRs, (any_of_IsEqual_null _ _ _ _ Hscan HR).
Qed.


Lemma sawSolutionImpl_found (this : AfterPoundExprCompletion) (S : Solution) :
  any_of (Results this)
    (IsEqual (getTypeForCompletion S (CompletionExpr this))) = Done true →
  sawSolutionImpl this S = Done this.
Proof. unfold sawSolutionImpl. by intros ->. Qed.

Lemma sawSolutionImpl_fresh (this : AfterPoundExprCompletion) (S : Solution) :
  any_of (Results this)
    (IsEqual (getTypeForCompletion S (CompletionExpr this))) = Done false →
  sawSolutionImpl this S = Done (push_back this (recorded this S)).
Proof. unfold sawSolutionImpl. by intros ->. Qed.

Lemma sawSolutionImpl_cases (this : AfterPoundExprCompletion) (S : Solution) :
  NonNullTypes (Results this) →
  let T := getTypeForCompletion S (CompletionExpr this) in
  (Duplicate (Results this) T ∧ sawSolutionImpl this S = Done this)
  ∨ (¬ Duplicate (Results this) T
     ∧ (∀ R, R ∈ Results this →
          ∃ P, ExpectedTy R = Some P ∧ isEqual P T = false)
     ∧ sawSolutionImpl this S = Done (push_back this (recorded this S))).
Proof.
  intros Hnn T.
  destruct (any_of_IsEqual_total (Results this) T Hnn) as [[|] Hscan].
  - left. split; [by apply any_of_IsEqual_true|by apply sawSolutionImpl_found].
  - right. pose proof (any_of_IsEqual_false _ _ Hscan) as Hall.
    split_and!; [|done|by apply sawSolutionImpl_fresh].
    intros (R & P & Hin & HP & HE).
    destruct (Hall R Hin) as (P' & HP' & HE'). congruence.
Qed.

(** The members other than [Results] never change. *)
Lemma push_back_with_Results (this : AfterPoundExprCompletion) (R : Result) :
  push_back this R = with_Results this (Results this ++ [R]).
Proof. done. Qed.

Lemma with_Results_id (this : AfterPoundExprCompletion) :
  with_Results this (Results this) = this.
Proof. by destruct this. Qed.

Lemma push_back_CompletionExpr (this : AfterPoundExprCompletion) (R : Result) :
  CompletionExpr (push_back this R) = CompletionExpr this.
Proof. done. Qed.

Lemma sawSolutionImpl_CompletionExpr
    (this this' : AfterPoundExprCompletion) (S : Solution) :
  sawSolutionImpl this S = Done this' →
  CompletionExpr this' = CompletionExpr this.
Proof.
  unfold sawSolutionImpl.
  destruct (any_of _ _) as [[|]|]; simpl; intros [= <-]; done.
Qed.

(** ** The invariant of the result list *)

Lemma NoDuplicateTypes_nil : NoDuplicateTypes [].
Proof. intros i j Ri Rj Ti Tj _ Hi. by rewrite lookup_nil in Hi. Qed.

Lemma NoDuplicateTypes_snoc (Rs : list Result) (R : Result) :
  NoDuplicateTypes Rs →
  (∀ R', R' ∈ Rs →
     ∃ P', ExpectedTy R' = Some P' ∧ isEqual P' (ExpectedTy R) = false) →
  NoDuplicateTypes (Rs ++ [R]).
Proof using isEqual_sym.
  intros Hinv Hnew i j Ri Rj Ti Tj Hij Hi Hj HTi HTj.
  apply lookup_snoc_Some in Hi as [[Hi_lt Hi]|[Hi_eq ->]];
    apply lookup_snoc_Some in Hj as [[Hj_lt Hj]|[Hj_eq ->]].
  - by eapply Hinv.
  - apply list_elem_of_lookup_2 in Hi.
    destruct (Hnew _ Hi) as (P & HP & HE). congruence.
  - apply list_elem_of_lookup_2 in Hj.
    destruct (Hnew _ Hj) as (P & HP & HE).
    rewrite isEqual_sym. congruence.
  - congruence.
Qed.

Lemma sawSolutionImpl_invariant (this : AfterPoundExprCompletion) (S : Solution) :
  NonNullTypes (Results this) → NoDuplicateTypes (Results this) →
  is_Some (getTypeForCompletion S (CompletionExpr this)) →
  ∃ this', sawSolutionImpl this S = Done this'
    ∧ NonNullTypes (Results this') ∧ NoDuplicateTypes (Results this').
Proof using isEqual_sym.
  intros Hnn Hinv HT.
  destruct (sawSolutionImpl_cases this S Hnn) as [[_ ->]|(_ & Hall & ->)].
  - by exists this.
  - eexists. split; [done|]. simpl. split.
    + apply Forall_app. split; [done|]. by apply Forall_singleton.
    + by apply NoDuplicateTypes_snoc.
Qed.

(** ** A second solution of the same expected type *)

Lemma any_of_IsEqual_trans (Rs : list Result) (T1 T2 : TypeBase) :
  isEqual T1 (Some T2) = true →
  any_of Rs (IsEqual (Some T1)) = Done true →
  any_of Rs (IsEqual (Some T2)) = Done true.
Proof using isEqual_trans.
  intros H12. induction Rs as [|R Rs IH]; simpl; [done|].
  unfold IsEqual at 1 3.
  destruct (ExpectedTy R) as [P|]; simpl; [|done].
  destruct (isEqual P (Some T1)) eqn:H1.
  - by rewrite (isEqual_trans P T1 T2).
  - destruct (isEqual P (Some T2)); [done|apply IH].
Qed.

Lemma any_of_IsEqual_snoc (Rs : list Result) (R : Result) (T1 T2 : TypeBase) :
  ExpectedTy R = Some T1 → isEqual T1 (Some T2) = true →
  any_of Rs (IsEqual (Some T1)) = Done false →
  any_of (Rs ++ [R]) (IsEqual (Some T2)) = Done true.
Proof.
  intros HR H12. induction Rs as [|R' Rs IH]; simpl.
  - intros _. unfold IsEqual. rewrite HR. simpl. by rewrite H12.
  - unfold IsEqual at 1 3.
    destruct (ExpectedTy R') as [P|]; simpl; [|done].
    destruct (isEqual P (Some T1)); [done|].
    destruct (isEqual P (Some T2)); [done|apply IH].
Qed.

Lemma sawSolutionImpl_again
    (this this1 : AfterPoundExprCompletion) (S1 S2 : Solution) (T1 T2 : TypeBase) :
  getTypeForCompletion S1 (CompletionExpr this) = Some T1 →
  getTypeForCompletion S2 (CompletionExpr this) = Some T2 →
  isEqual T1 (Some T2) = true →
  sawSolutionImpl this S1 = Done this1 →
  sawSolutionImpl this1 S2 = Done this1.
Proof using isEqual_trans.
  intros HT1 HT2 H12 Hfirst.
  apply sawSolutionImpl_found.
  rewrite (sawSolutionImpl_CompletionExpr _ _ _ Hfirst), HT2.
  revert Hfirst. unfold sawSolutionImpl. rewrite HT1.
  destruct (any_of (Results this) _) as [[|]|] eqn:Hscan; simpl; [| |done].
  - intros [= <-]. by eapply any_of_IsEqual_trans.
  - intros [= <-]. simpl. by eapply any_of_IsEqual_snoc.
Qed.

(** ** Properties of the collector *)

(** C1.  Four solutions are recorded into an empty result list; their
    expected types are [T1], [T2], a type structurally equal to [T1], and
    [T3], the three named types being structurally distinct.  The pass ends
    with exactly three entries, of types [T1], [T2], [T3] in that order,
    and the two flags stored with [T1] are those of the first solution. *)
Theorem sawSolutions_T1_T2_T1_T3
    (this : AfterPoundExprCompletion) (S1 S2 S3 S4 : Solution)
    (T1 T2 T1' T3 : TypeBase) :
  Results this = [] →
  getTypeForCompletion S1 (CompletionExpr this) = Some T1 →
  getTypeForCompletion S2 (CompletionExpr this) = Some T2 →
  getTypeForCompletion S3 (CompletionExpr this) = Some T1' →
  getTypeForCompletion S4 (CompletionExpr this) = Some T3 →
  isEqual T1 (Some T1') = true →
  isEqual T1 (Some T2) = false →
  isEqual T1 (Some T3) = false →
  isEqual T2 (Some T3) = false →
  sawSolutions this [S1; S2; S3; S4] =
    Done (with_Results this
      [ mkResult (Some T1)
          (isImplicitSingleExpressionReturn (getConstraintSystem S1)
             (CompletionExpr this))
          (isContextAsync S1 (DC this));
        mkResult (Some T2)
          (isImplicitSingleExpressionReturn (getConstraintSystem S2)
             (CompletionExpr this))
          (isContextAsync S2 (DC this));
        mkResult (Some T3)
          (isImplicitSingleExpressionReturn (getConstraintSystem S4)
             (CompletionExpr this))
          (isContextAsync S4 (DC this)) ]).
Proof.
  intros Hempty H1 H2 H3 H4 E11 E12 E13 E23.
  destruct this as [CE D K Rs]. simpl in *. subst Rs.
  unfold sawSolutionImpl. simpl.
  rewrite H1. simpl.
  rewrite H2, E12. simpl.
  rewrite H3, E11. simpl.
  rewrite H4, E13. simpl.
  rewrite E23. simpl.
  done.
Qed.

(** C2.  The result list never holds two entries of structurally equal
    expected types: started on a list with this property, and fed
    solutions whose expected types are not null, any sequence of calls of
    [sawSolutionImpl] runs to its end and leaves a list with the property
    again.  One call is the sequence of length one, and the whole pass is
    the sequence started on the empty list. *)
Theorem sawSolutions_NoDuplicateTypes
    (this : AfterPoundExprCompletion) (Ss : list Solution) :
  NonNullTypes (Results this) →
  NoDuplicateTypes (Results this) →
  Forall (λ S, is_Some (getTypeForCompletion S (CompletionExpr this))) Ss →
  ∃ this', sawSolutions this Ss = Done this'
    ∧ NonNullTypes (Results this') ∧ NoDuplicateTypes (Results this').
Proof using isEqual_sym.
  intros Hnn Hinv HSs. revert this Hnn Hinv HSs.
  induction Ss as [|S Ss IH]; intros this Hnn Hinv HSs; simpl.
  - by exists this.
  - apply Forall_cons in HSs as [HS HSs].
    destruct (sawSolutionImpl_invariant this S Hnn Hinv HS)
      as (this1 & Hstep & Hnn1 & Hinv1).
    rewrite Hstep. simpl. apply IH; [done|done|].
    by rewrite (sawSolutionImpl_CompletionExpr _ _ _ Hstep).
Qed.

(** C3.  When two solutions have structurally equal expected types,
    recording the second right after the first changes nothing: the first
    call ends normally, and the second call returns the object exactly as
    the first one left it. *)
Theorem sawSolutionImpl_idempotent
    (this : AfterPoundExprCompletion) (S1 S2 : Solution) (T1 T2 : TypeBase) :
  NonNullTypes (Results this) →
  getTypeForCompletion S1 (CompletionExpr this) = Some T1 →
  getTypeForCompletion S2 (CompletionExpr this) = Some T2 →
  isEqual T1 (Some T2) = true →
  ∃ this1, sawSolutionImpl this S1 = Done this1
    ∧ sawSolutionImpl this1 S2 = Done this1
    ∧ sawSolutions this [S1; S2] = sawSolutions this [S1].
Proof using isEqual_trans.
  intros Hnn HT1 HT2 H12.
  assert (∃ this1, sawSolutionImpl this S1 = Done this1) as [this1 Hfirst].
  { destruct (sawSolutionImpl_cases this S1 Hnn) as [[_ ->]|(_ & _ & ->)];
      by eexists. }
  pose proof (sawSolutionImpl_again _ _ _ _ _ _ HT1 HT2 H12 Hfirst) as Hsecond.
  exists this1. split_and!; [done|done|].
  simpl. rewrite Hfirst. simpl. by rewrite Hsecond.
Qed.

(** C4.  A solution whose expected type is structurally equal to that of a
    stored entry is dropped without any effect: the call ends normally and
    the object, hence its result list with every entry and every flag, is
    exactly what it was. *)
Theorem sawSolutionImpl_duplicate_unchanged
    (this : AfterPoundExprCompletion) (S : Solution) :
  NonNullTypes (Results this) →
  Duplicate (Results this) (getTypeForCompletion S (CompletionExpr this)) →
  sawSolutionImpl this S = Done this.
Proof.
  intros Hnn Hdup. apply sawSolutionImpl_found. by apply Duplicate_any_of.
Qed.

(** C9.  The scan dereferences the stored expected types, and the expected
    type of a solution is stored as it comes.  When no solution has a null
    expected type the pass runs to its end, and no stored type is null.
    A null expected type is stored by the first call unchecked, and the
    call for the next solution, whatever it is, dereferences it. *)
Theorem sawSolutions_null_safety
    (this : AfterPoundExprCompletion) (Ss : list Solution) (S1 S2 : Solution) :
  Results this = [] →
  Forall (λ S, is_Some (getTypeForCompletion S (CompletionExpr this))) Ss →
  getTypeForCompletion S1 (CompletionExpr this) = None →
  (∃ this', sawSolutions this Ss = Done this'
     ∧ NonNullTypes (Results this'))
  ∧ sawSolutionImpl this S1 =
      Done (with_Results this
        [ mkResult None
            (isImplicitSingleExpressionReturn (getConstraintSystem S1)
               (CompletionExpr this))
            (isContextAsync S1 (DC this)) ])
  ∧ sawSolutions this [S1; S2] = NullDereference.
Proof.
  intros Hempty HSs Hnull. split_and!.
  - assert (NonNullTypes (Results this)) as Hnn.
    { rewrite Hempty. constructor. }
    clear Hempty Hnull. revert this Hnn HSs.
    induction Ss as [|S Ss IH]; intros this Hnn HSs; simpl.
    + by exists this.
    + apply Forall_cons in HSs as [HS HSs].
      destruct (sawSolutionImpl_cases this S Hnn) as [[_ ->]|(_ & _ & ->)];
        simpl; apply IH; try done.
      apply Forall_app. split; [done|]. by apply Forall_singleton.
  - destruct this as [CE D K Rs]. simpl in *. subst Rs.
    unfold sawSolutionImpl. simpl. by rewrite Hnull.
  - destruct this as [CE D K Rs]. simpl in *. subst Rs.
    unfold sawSolutionImpl. simpl. by rewrite Hnull.
Qed.

(** ** The run of [deliverResults] *)

Lemma deliverResults_body_run (R : Result) (m : Machine) :
  deliverResults_body R m =
    (tt, mkMachine (self m)
           (Lookup m ++ per_result (ParentStmtKind (self m)) R)
           (Consumer m)).
Proof.
  unfold deliverResults_body, per_result, call, member, mbind, Run_mbind.
  simpl. by rewrite <- !(assoc_L (++)).
Qed.

Lemma for_each_body_run (Range : list Result) (m : Machine) :
  for_each Range deliverResults_body m =
    (tt, mkMachine (self m)
           (Lookup m ++ (Range ≫= per_result (ParentStmtKind (self m))))
           (Consumer m)).
Proof.
  revert m. induction Range as [|R Range IH]; intros m.
  - simpl. rewrite (right_id_L [] (++)). by destruct m.
  - change (for_each (R :: Range) deliverResults_body m)
      with (let '(_, m') := deliverResults_body R m in
            for_each Range deliverResults_body m').
    rewrite deliverResults_body_run, IH. simpl.
    by rewrite <- (assoc_L (++)).
Qed.

Lemma deliverResults_run (m : Machine) :
  let calls :=
    shouldCheckForDuplicates (1 <? length (Results (self m)))
    :: (Results (self m) ≫= per_result (ParentStmtKind (self m))) in
  deliverResults m = (tt, mkMachine (self m) calls (Consumer m ++ [calls])).
Proof.
  unfold deliverResults, mbind, Run_mbind, construct_Lookup, member, call.
  simpl. by rewrite for_each_body_run.
Qed.

Lemma duplicateModes_per_result (Kind : StmtKind) (Rs : list Result) :
  duplicateModes (Rs ≫= per_result Kind) = [].
Proof. induction Rs as [|R Rs IH]; [done|apply IH]. Qed.

Lemma expectations_per_result (Kind : StmtKind) (Rs : list Result) :
  expectations (Rs ≫= per_result Kind) =
    (λ R, ([ExpectedTy R], IsImplicitSingleExpressionReturn R, true)) <$> Rs.
Proof.
  induction Rs as [|R Rs IH]; [done|].
  change (expectations ((R :: Rs) ≫= per_result Kind))
    with (([ExpectedTy R], IsImplicitSingleExpressionReturn R, true)
          :: expectations (Rs ≫= per_result Kind)).
  by rewrite IH.
Qed.

(** The calls of the result at position [i] are the five calls from
    position [1 + 5 * i] of the engine's history. *)
Lemma per_result_at (Kind : StmtKind) (Rs : list Result)
    (i : nat) (R : Result) :
  Rs !! i = Some R →
  take 5 (drop (5 * i) (Rs ≫= per_result Kind)) = per_result Kind R.
Proof.
  revert i. induction Rs as [|R' Rs IH]; intros i Hi; [done|].
  destruct i as [|i]; simpl in Hi.
  - by injection Hi as ->.
  - replace (5 * S i) with (5 + 5 * i) by lia.
    change ((R' :: Rs) ≫= per_result Kind)
      with (per_result Kind R' ++ (Rs ≫= per_result Kind)).
    rewrite <- drop_drop. change (drop 5 (per_result Kind R' ++ ?l)) with l.
    by apply IH.
Qed.

Lemma deliverResults_calls_at (m : Machine) (i : nat) (R : Result) :
  Results (self m) !! i = Some R →
  take 5 (drop (1 + 5 * i) (Lookup (deliverResults m).2)) =
    per_result (ParentStmtKind (self m)) R.
Proof.
  intros Hi. rewrite deliverResults_run. simpl. by apply per_result_at.
Qed.

(** ** Properties of the presenter *)

(** C5.  The engine of [deliverResults] is given its duplicate-checking
    mode once: off when the result list has exactly one entry, on when it
    has two or more. *)
Theorem deliverResults_duplicate_checking (m : Machine) :
  (length (Results (self m)) = 1 →
     duplicateModes (Lookup (deliverResults m).2) = [false])
  ∧ (2 ≤ length (Results (self m)) →
     duplicateModes (Lookup (deliverResults m).2) = [true]).
Proof.
  rewrite deliverResults_run. simpl.
  change (duplicateModes (?c :: ?l))
    with (match c with shouldCheckForDuplicates value => [value] | _ => [] end
          ++ duplicateModes l).
  rewrite duplicateModes_per_result. simpl. split.
  - by intros ->.
  - intros Hlen. by destruct (Nat.ltb_spec 1 (length (Results (self m)))); [|lia].
Qed.

(** C6, as the code has it.  On an empty result list the engine of
    [deliverResults] receives no completion request and no expectation;
    the one call made on it sets the duplicate-checking mode, to off
    ([Results.size() > 1] is evaluated and passed before the loop, which
    is then not entered).  That engine is handed over once. *)
Theorem deliverResults_no_result (m : Machine) :
  Results (self m) = [] →
  Lookup (deliverResults m).2 = [shouldCheckForDuplicates false]
  ∧ filter is_completion_request (Lookup (deliverResults m).2) = []
  ∧ expectations (Lookup (deliverResults m).2) = []
  ∧ Consumer (deliverResults m).2 =
      Consumer m ++ [[shouldCheckForDuplicates false]].
Proof. intros Hempty. rewrite deliverResults_run. simpl. by rewrite Hempty. Qed.

(** C7.  The engine of [deliverResults] receives, after the
    duplicate-checking mode, the calls of the first result, then those of
    the second, and so on in the order of the list; the calls of one result
    are its expectation followed by the four completion requests in the
    order availability, literal, Objective-C keyword, macro. *)
Theorem deliverResults_calls_in_order (m : Machine) :
  Lookup (deliverResults m).2 =
    shouldCheckForDuplicates (1 <? length (Results (self m)))
    :: (Results (self m) ≫= λ R,
          [ setExpectedTypes [ExpectedTy R]
              (IsImplicitSingleExpressionReturn R) true;
            addPoundAvailable (ParentStmtKind (self m));
            addPoundLiteralCompletions false;
            addObjCPoundKeywordCompletions false;
            getMacroCompletions false ]).
Proof. by rewrite deliverResults_run. Qed.

(** C8.  The expectations installed on the engine of [deliverResults] are,
    result by result, the one-element list of the result's expected type,
    the result's implicit-single-expression-return flag, and [true] for
    the non-void flag. *)
Theorem deliverResults_expectations (m : Machine) :
  expectations (Lookup (deliverResults m).2) =
    (λ R, ([ExpectedTy R], IsImplicitSingleExpressionReturn R, true))
      <$> Results (self m).
Proof.
  rewrite deliverResults_run. simpl.
  change (expectations (shouldCheckForDuplicates ?b :: ?l))
    with (expectations l).
  apply expectations_per_result.
Qed.

(** C10.  One call of [deliverResults] hands the engine over exactly once,
    whatever the result list, and the engine handed over has received
    every call of the loop; the object, with its result list, is left as
    it was. *)
Theorem deliverResults_delivers_once (m : Machine) :
  Consumer (deliverResults m).2 =
    Consumer m ++
      [ shouldCheckForDuplicates (1 <? length (Results (self m)))
        :: (Results (self m) ≫= per_result (ParentStmtKind (self m))) ]
  ∧ Consumer (deliverResults m).2 = Consumer m ++ [Lookup (deliverResults m).2]
  ∧ self (deliverResults m).2 = self m
  ∧ Results (self (deliverResults m).2) = Results (self m).
Proof. by rewrite deliverResults_run. Qed.

(** ** Further properties of the collector *)

Lemma any_of_app_true {A : Type} (Rs1 Rs2 : list A) (P : A → exec bool) :
  any_of Rs1 P = Done true → any_of (Rs1 ++ Rs2) P = Done true.
Proof.
  induction Rs1 as [|R Rs1 IH]; simpl; [done|].
  destruct (P R) as [[|]|]; [done|apply IH|done].
Qed.

Lemma any_of_IsEqual_false_intro (Rs : list Result) (T : swift_Type) :
  (∀ R, R ∈ Rs → ∃ P, ExpectedTy R = Some P ∧ isEqual P T = false) →
  any_of Rs (IsEqual T) = Done false.
Proof.
  induction Rs as [|R Rs IH]; intros Hall; simpl; [done|].
  destruct (Hall R) as (P & HP & HE); [left|].
  unfold IsEqual at 1. rewrite HP. simpl. rewrite HE.
  apply IH. intros R' Hin. apply Hall. by right.
Qed.

Lemma any_of_IsEqual_NullDereference (Rs : list Result) (T : swift_Type) :
  any_of Rs (IsEqual T) = NullDereference →
  ∃ Rs1 R Rs2, Rs = Rs1 ++ R :: Rs2 ∧ ExpectedTy R = None
    ∧ ∀ R', R' ∈ Rs1 → ∃ P, ExpectedTy R' = Some P ∧ isEqual P T = false.
Proof.
  induction Rs as [|R Rs IH]; simpl; [done|].
  unfold IsEqual at 1.
  destruct (ExpectedTy R) as [P|] eqn:HP; simpl.
  - destruct (isEqual P T) eqn:HE; [done|].
    intros (Rs1 & R0 & Rs2 & -> & HR0 & Hall)%IH.
    exists (R :: Rs1), R0, Rs2. split_and!; [done|done|].
    intros R' [->|Hin]%elem_of_cons; eauto.
  - intros _. exists [], R, Rs. split_and!; [done|done|].
    intros R' Hin. by apply elem_of_nil in Hin.
Qed.

Lemma sawSolutionImpl_Done_inv
    (this this' : AfterPoundExprCompletion) (S : Solution) :
  sawSolutionImpl this S = Done this' →
  (any_of (Results this) (IsEqual (type_of this S)) = Done true
     ∧ this' = this)
  ∨ (any_of (Results this) (IsEqual (type_of this S)) = Done false
     ∧ this' = push_back this (recorded this S)).
Proof.
  unfold sawSolutionImpl, type_of.
  destruct (any_of _ _) as [[|]|]; simpl; [| |done].
  - intros [= <-]. by left.
  - intros [= <-]. by right.
Qed.

Lemma sawSolutions_extends
    (this this' : AfterPoundExprCompletion) (Ss : list Solution) :
  sawSolutions this Ss = Done this' →
  ∃ New, this' = with_Results this (Results this ++ New).
Proof.
  revert this. induction Ss as [|S Ss IH]; intros this; simpl.
  - intros [= <-]. exists []. by rewrite (right_id_L [] (++)), with_Results_id.
  - destruct (sawSolutionImpl this S) as [this1|] eqn:Hstep; simpl; [|done].
    intros [New ->]%IH.
    apply sawSolutionImpl_Done_inv in Hstep as [[_ ->]|[_ ->]].
    + by exists New.
    + exists (recorded this S :: New). simpl.
      by rewrite <- (assoc_L (++)).
Qed.

(** X1.  The result list only grows at its end.  When a pass over [Ss]
    ends normally, the list it leaves is the one it found followed by new
    entries; the new entries are entries of solutions of [Ss], in the
    order of [Ss], at most one per solution; no other member of the
    object has changed. *)
Theorem sawSolutions_append_only
    (this this' : AfterPoundExprCompletion) (Ss : list Solution) :
  sawSolutions this Ss = Done this' →
  ∃ New, this' = with_Results this (Results this ++ New)
    ∧ sublist New (recorded this <$> Ss).
Proof.
  revert this. induction Ss as [|S Ss IH]; intros this; simpl.
  - intros [= <-]. exists [].
    by rewrite (right_id_L [] (++)), with_Results_id.
  - destruct (sawSolutionImpl this S) as [this1|] eqn:Hstep; simpl; [|done].
    intros (New & -> & Hsub)%IH.
    apply sawSolutionImpl_Done_inv in Hstep as [[_ ->]|[_ ->]].
    + exists New. split; [done|]. by apply sublist_cons.
    + exists (recorded this S :: New). split.
      * simpl. by rewrite <- (assoc_L (++)).
      * by apply sublist_skip.
Qed.

(** X2.  A solution whose expected type is structurally equal to that of
    no stored entry is recorded: the call ends normally and has put one
    entry at the end of the list, made of the solution's expected type
    and of its own two flags. *)
Theorem sawSolutionImpl_fresh_appended
    (this : AfterPoundExprCompletion) (S : Solution) :
  NonNullTypes (Results this) →
  ¬ Duplicate (Results this) (getTypeForCompletion S (CompletionExpr this)) →
  sawSolutionImpl this S =
    Done (with_Results this
      (Results this ++
        [ mkResult (getTypeForCompletion S (CompletionExpr this))
            (isImplicitSingleExpressionReturn (getConstraintSystem S)
               (CompletionExpr this))
            (isContextAsync S (DC this)) ])).
Proof.
  intros Hnn Hfresh.
  by destruct (sawSolutionImpl_cases this S Hnn) as [[? _]|(_ & _ & ->)].
Qed.

(** X3.  A call stops at a null dereference exactly when the list holds
    an entry with a null expected type, and every entry in front of it
    has a type that is not null and not structurally equal to the
    solution's. *)
Theorem sawSolutionImpl_NullDereference_iff
    (this : AfterPoundExprCompletion) (S : Solution) :
  sawSolutionImpl this S = NullDereference ↔
  ∃ Rs1 R Rs2, Results this = Rs1 ++ R :: Rs2 ∧ ExpectedTy R = None
    ∧ ∀ R', R' ∈ Rs1 →
        ∃ P, ExpectedTy R' = Some P
          ∧ isEqual P (getTypeForCompletion S (CompletionExpr this)) = false.
Proof.
  split.
  - intros Hstop. apply any_of_IsEqual_NullDereference.
    revert Hstop. unfold sawSolutionImpl.
    by destruct (any_of _ _) as [[|]|].
  - intros (Rs1 & R & Rs2 & HRs & HR & Hall).
    eapply sawSolutionImpl_null_entry; [done| |done].
    by apply any_of_IsEqual_false_intro.
Qed.

(** X4.  The scan stops at the first match: when the entries up to some
    position have types that are not null, and one of them is
    structurally equal to the solution's, the call ends normally and
    changes nothing, whatever the entries behind that position hold. *)
Theorem sawSolutionImpl_first_match
    (this : AfterPoundExprCompletion) (S : Solution) (Rs1 Rs2 : list Result) :
  Results this = Rs1 ++ Rs2 →
  NonNullTypes Rs1 →
  Duplicate Rs1 (getTypeForCompletion S (CompletionExpr this)) →
  sawSolutionImpl this S = Done this.
Proof.
  intros HRs Hnn Hdup. apply sawSolutionImpl_found. rewrite HRs.
  apply any_of_app_true. by apply Duplicate_any_of.
Qed.

(** X5.  When a pass ends normally, every solution it was given is
    represented in the list it leaves: some entry has the solution's
    expected type itself, or a type structurally equal to it. *)
Theorem sawSolutions_covers
    (this this' : AfterPoundExprCompletion) (Ss : list Solution) (S : Solution) :
  sawSolutions this Ss = Done this' →
  S ∈ Ss →
  ∃ R, R ∈ Results this'
    ∧ (ExpectedTy R = getTypeForCompletion S (CompletionExpr this)
       ∨ ∃ P, ExpectedTy R = Some P
           ∧ isEqual P (getTypeForCompletion S (CompletionExpr this)) = true).
Proof.
  revert this. induction Ss as [|S0 Ss IH]; intros this Hpass Hin.
  - by apply elem_of_nil in Hin.
  - simpl in Hpass.
    destruct (sawSolutionImpl this S0) as [this1|] eqn:Hstep;
      simpl in Hpass; [|done].
    pose proof (sawSolutionImpl_CompletionExpr _ _ _ Hstep) as HCE.
    apply elem_of_cons in Hin as [->|Hin].
    + destruct (sawSolutions_extends _ _ _ Hpass) as [New ->]. simpl.
      apply sawSolutionImpl_Done_inv in Hstep as [[Hscan ->]|[_ ->]].
      * apply any_of_IsEqual_true in Hscan as (R & P & HR & HP & HE).
        exists R. split; [apply elem_of_app; by left|]. right. by exists P.
      * exists (recorded this S0). split; [|by left].
        simpl. rewrite !elem_of_app, list_elem_of_singleton. auto.
    + rewrite <- HCE. by apply IH.
Qed.

(** ** The pass as a selection of the first-seen types *)

Lemma seen_before_true (E : Expr) (Seen : list Solution) (S : Solution) :
  seen_before E Seen S = true ↔
  ∃ S' P', S' ∈ Seen ∧ getTypeForCompletion S' E = Some P'
    ∧ isEqual P' (getTypeForCompletion S E) = true.
Proof.
  unfold seen_before. rewrite existsb_exists. split.
  - intros (S' & Hin%list_elem_of_In & HE).
    destruct (getTypeForCompletion S' E) as [P'|] eqn:HP'; [|done].
    by exists S', P'.
  - intros (S' & P' & Hin%list_elem_of_In & HP' & HE).
    exists S'. by rewrite HP'.
Qed.

Lemma any_of_seen_before
    (E : Expr) (Seen : list Solution) (Rs : list Result)
    (S : Solution) (P0 : TypeBase) :
  NonNullTypes Rs → tracks E Seen Rs →
  getTypeForCompletion S E = Some P0 →
  any_of Rs (IsEqual (Some P0)) = Done (seen_before E Seen S).
Proof using isEqual_trans.
  intros Hnn [Hfrom Hrepr] HP0.
  destruct (any_of_IsEqual_total Rs (Some P0) Hnn) as [[|] Hscan];
    rewrite Hscan; f_equal; symmetry.
  - apply any_of_IsEqual_true in Hscan as (R & P & HR & HP & HE).
    apply seen_before_true.
    destruct (Hfrom R HR) as (S' & HS' & HRS').
    exists S', P. rewrite HP0. split_and!; [done|congruence|done].
  - apply not_true_is_false. intros Hseen.
    apply seen_before_true in Hseen as (S' & P' & HS' & HP' & HE).
    rewrite HP0 in HE.
    destruct (Hrepr S' HS') as (P'' & R & P & HP'' & HR & HP & Hor).
    assert (P'' = P') as -> by congruence.
    destruct (any_of_IsEqual_false _ _ Hscan R HR) as (Q & HQ & HQE).
    assert (Q = P) as -> by congruence.
    destruct Hor as [->|Hor]; [congruence|].
    by rewrite (isEqual_trans P P' P0) in HQE.
Qed.

Lemma sawSolutions_first_seen_from
    (this : AfterPoundExprCompletion) (Seen Ss : list Solution) :
  NonNullTypes (Results this) →
  tracks (CompletionExpr this) Seen (Results this) →
  Forall (λ S, is_Some (getTypeForCompletion S (CompletionExpr this))) Ss →
  sawSolutions this Ss =
    Done (with_Results this
      (Results this ++
        (recorded this <$> first_seen (CompletionExpr this) Seen Ss))).
Proof using isEqual_trans.
  revert this Seen.
  induction Ss as [|S Ss IH]; intros this Seen Hnn Htr HSs; simpl.
  - by rewrite (right_id_L [] (++)), with_Results_id.
  - apply Forall_cons in HSs as [[P0 HP0] HSs].
    pose proof (any_of_seen_before _ _ _ _ _ Hnn Htr HP0) as Hscan.
    destruct Htr as [Hfrom Hrepr].
    destruct (seen_before (CompletionExpr this) Seen S) eqn:Hseen.
    + assert (Duplicate (Results this) (Some P0)) as (R & P & HR & HP & HE)
        by by apply any_of_IsEqual_true.
      rewrite sawSolutionImpl_found by by rewrite HP0.
      simpl. apply IH; [done| |done]. split.
      * intros R' HR'. destruct (Hfrom R' HR') as (S' & HS' & HT').
        exists S'. split; [apply elem_of_app; by left|done].
      * intros S' [HS'|HS'%list_elem_of_singleton]%elem_of_app.
        -- by apply Hrepr.
        -- subst S'. exists P0, R, P. split_and!; [done|done|done|by right].
    + rewrite sawSolutionImpl_fresh by by rewrite HP0.
      simpl. rewrite (IH (push_back this (recorded this S)) (Seen ++ [S]));
        [|simpl..].
      * simpl. by rewrite <- (assoc_L (++)).
      * apply Forall_app. split; [done|].
        apply Forall_singleton. simpl. by rewrite HP0.
      * split.
        -- intros R' [HR'|HR'%list_elem_of_singleton]%elem_of_app.
           ++ destruct (Hfrom R' HR') as (S' & HS' & HT').
              exists S'. split; [apply elem_of_app; by left|done].
           ++ subst R'. exists S. split; [|done].
              apply elem_of_app. right. by apply list_elem_of_singleton.
        -- intros S' [HS'|HS'%list_elem_of_singleton]%elem_of_app.
           ++ destruct (Hrepr S' HS') as (P' & R & P & HP' & HR & HP & Hor).
              exists P', R, P.
              split_and!; [done|apply elem_of_app; by left|done|done].
           ++ subst S'. exists P0, (recorded this S), P0.
              split_and!; [done| |done|by left].
              apply elem_of_app. right. by apply list_elem_of_singleton.
      * done.
Qed.

Lemma tracks_nil (E : Expr) : tracks E [] [].
Proof.
  split; [intros R HR|intros S HS]; [by apply elem_of_nil in HR|by apply elem_of_nil in HS].
Qed.

(** X6.  A pass that starts on the empty list, over solutions whose
    expected types are not null, records exactly the solutions whose
    expected type is not structurally equal to that of an earlier solution
    of the sequence, in the order of the sequence, each with its own
    expected type and flags. *)
Theorem sawSolutions_first_seen
    (this : AfterPoundExprCompletion) (Ss : list Solution) :
  Results this = [] →
  Forall (λ S, is_Some (getTypeForCompletion S (CompletionExpr this))) Ss →
  sawSolutions this Ss =
    Done (with_Results this
      (recorded this <$> first_seen (CompletionExpr this) [] Ss)).
Proof using isEqual_trans.
  intros Hempty HSs.
  rewrite (sawSolutions_first_seen_from this [] Ss); [|rewrite Hempty..|done].
  - by rewrite Hempty.
  - constructor.
  - apply tracks_nil.
Qed.

(** X7.  Whether a solution is recorded depends on its expected type
    up to structural equality only: two solutions whose types are
    structurally equal are, on the same list, both dropped or both
    recorded. *)
Theorem sawSolutionImpl_respects_isEqual
    (this : AfterPoundExprCompletion) (S1 S2 : Solution) (T1 T2 : TypeBase) :
  NonNullTypes (Results this) →
  getTypeForCompletion S1 (CompletionExpr this) = Some T1 →
  getTypeForCompletion S2 (CompletionExpr this) = Some T2 →
  isEqual T1 (Some T2) = true →
  (sawSolutionImpl this S1 = Done this ∧ sawSolutionImpl this S2 = Done this)
  ∨ (sawSolutionImpl this S1 = Done (push_back this (recorded this S1))
     ∧ sawSolutionImpl this S2 = Done (push_back this (recorded this S2))).
Proof using isEqual_sym isEqual_trans.
  intros Hnn HT1 HT2 H12.
  destruct (any_of_IsEqual_total (Results this) (Some T1) Hnn) as [b1 Hscan1].
  destruct (any_of_IsEqual_total (Results this) (Some T2) Hnn) as [b2 Hscan2].
  assert (b1 = b2) as <-.
  { destruct b1, b2; [done| | |done].
    - rewrite (any_of_IsEqual_trans _ _ _ H12 Hscan1) in Hscan2. congruence.
    - rewrite isEqual_sym in H12.
      rewrite (any_of_IsEqual_trans _ _ _ H12 Hscan2) in Hscan1. congruence. }
  destruct b1; [left|right].
  - split; apply sawSolutionImpl_found; by rewrite ?HT1, ?HT2.
  - split; apply sawSolutionImpl_fresh; by rewrite ?HT1, ?HT2.
Qed.

(** ** Further properties of the presenter *)



Lemma well_requested_per_result (Kind : StmtKind) (Rs : list Result) :
  Forall (well_requested Kind) (Rs ≫= per_result Kind).
Proof.
  induction Rs as [|R Rs IH]; [constructor|].
  change ((R :: Rs) ≫= per_result Kind)
    with (per_result Kind R ++ (Rs ≫= per_result Kind)).
  apply Forall_app. split; [|done].
  repeat constructor.
Qed.


(** X9.  No call of [deliverResults] asks the engine for completions
    that carry the pound sign, and every availability request names the
    parent statement kind of the object. *)
Theorem deliverResults_well_requested (m : Machine) :
  Forall (well_requested (ParentStmtKind (self m)))
    (Lookup (deliverResults m).2).
Proof.
  rewrite deliverResults_run. simpl.
  apply Forall_cons. split; [done|apply well_requested_per_result].
Qed.


(** ** The collector followed by the presenter *)

Lemma sawSolutions_invariant
    (this : AfterPoundExprCompletion) (Ss : list Solution) :
  NonNullTypes (Results this) →
  NoDuplicateTypes (Results this) →
  Forall (λ S, is_Some (getTypeForCompletion S (CompletionExpr this))) Ss →
  ∃ this', sawSolutions this Ss = Done this'
    ∧ NonNullTypes (Results this') ∧ NoDuplicateTypes (Results this').
Proof using isEqual_sym.
  revert this. induction Ss as [|S Ss IH]; intros this Hnn Hinv HSs; simpl.
  - by exists this.
  - apply Forall_cons in HSs as [HS HSs].
    destruct (sawSolutionImpl_invariant this S Hnn Hinv HS)
      as (this1 & Hstep & Hnn1 & Hinv1).
    rewrite Hstep. simpl. apply IH; [done|done|].
    by rewrite (sawSolutionImpl_CompletionExpr _ _ _ Hstep).
Qed.

Lemma recorded_calls (this : AfterPoundExprCompletion) (Ss : list Solution) :
  (recorded this <$> Ss) ≫= per_result (ParentStmtKind this) =
    Ss ≫= λ S,
      [ setExpectedTypes [getTypeForCompletion S (CompletionExpr this)]
          (isImplicitSingleExpressionReturn (getConstraintSystem S)
             (CompletionExpr this))
          true;
        addPoundAvailable (ParentStmtKind this);
        addPoundLiteralCompletions false;
        addObjCPoundKeywordCompletions false;
        getMacroCompletions false ].
Proof.
  induction Ss as [|S Ss IH]; [done|].
  change ((recorded this <$> S :: Ss) ≫= per_result (ParentStmtKind this))
    with (per_result (ParentStmtKind this) (recorded this S)
          ++ ((recorded this <$> Ss) ≫= per_result (ParentStmtKind this))).
  by rewrite IH.
Qed.

(** X11.  A pass from the empty list over solutions whose expected types
    are not null, followed by [deliverResults]: the engine is told to
    check for duplicates exactly when two or more of the solutions are
    first of their type, and it then receives, for each solution that is
    first of its type and in the order of the solutions, that solution's
    expected type and implicit-single-expression-return flag, followed
    by the four completion requests. *)
Theorem sawSolutions_then_deliverResults
    (this : AfterPoundExprCompletion) (Ss : list Solution) :
  Results this = [] →
  Forall (λ S, is_Some (getTypeForCompletion S (CompletionExpr this))) Ss →
  ∃ this', sawSolutions this Ss = Done this'
    ∧ ∀ (L : list LookupCall) (C : list (list LookupCall)),
        Lookup (deliverResults (mkMachine this' L C)).2 =
          shouldCheckForDuplicates
            (1 <? length (first_seen (CompletionExpr this) [] Ss))
          :: (first_seen (CompletionExpr this) [] Ss ≫= λ S,
                [ setExpectedTypes
                    [getTypeForCompletion S (CompletionExpr this)]
                    (isImplicitSingleExpressionReturn
                       (getConstraintSystem S) (CompletionExpr this))
                    true;
                  addPoundAvailable (ParentStmtKind this);
                  addPoundLiteralCompletions false;
                  addObjCPoundKeywordCompletions false;
                  getMacroCompletions false ]).
Proof using isEqual_trans.
  intros Hempty HSs. eexists. split.
  - rewrite (sawSolutions_first_seen_from this [] Ss);
      [|rewrite Hempty..|done].
    + by rewrite Hempty.
    + constructor.
    + apply tracks_nil.
  - intros L C. rewrite deliverResults_run. simpl.
    by rewrite length_fmap, recorded_calls.
Qed.

(** X12.  After a pass over solutions whose expected types are not null,
    started on a list without null or structurally equal types, the
    engine of [deliverResults] is never given the same expected type
    twice: the types of two expectations at different positions are not
    structurally equal. *)
Theorem sawSolutions_then_distinct_expectations
    (this : AfterPoundExprCompletion) (Ss : list Solution) :
  NonNullTypes (Results this) →
  NoDuplicateTypes (Results this) →
  Forall (λ S, is_Some (getTypeForCompletion S (CompletionExpr this))) Ss →
  ∃ this', sawSolutions this Ss = Done this'
    ∧ ∀ (L : list LookupCall) (C : list (list LookupCall))
        (i j : nat) (Ti Tj : swift_Type) (Fi Fj Ni Nj : bool),
        i ≠ j →
        expectations (Lookup (deliverResults (mkMachine this' L C)).2) !! i
          = Some ([Ti], Fi, Ni) →
        expectations (Lookup (deliverResults (mkMachine this' L C)).2) !! j
          = Some ([Tj], Fj, Nj) →
        ∃ Pi Pj, Ti = Some Pi ∧ Tj = Some Pj ∧ isEqual Pi (Some Pj) = false.
Proof using isEqual_sym.
  intros Hnn Hinv HSs.
  destruct (sawSolutions_invariant this Ss Hnn Hinv HSs)
    as (this' & Hpass & Hnn' & Hinv').
  exists this'. split; [done|].
  intros L C i j Ti Tj Fi Fj Ni Nj Hij.
  rewrite deliverResults_run. simpl.
  change (expectations (shouldCheckForDuplicates ?b :: ?l))
    with (expectations l).
  rewrite expectations_per_result, !list_lookup_fmap.
  destruct (Results this' !! i) as [Ri|] eqn:Hi; simpl; [|done].
  destruct (Results this' !! j) as [Rj|] eqn:Hj; simpl; [|done].
  intros [= <- _ _] [= <- _ _].
  pose proof (proj1 (Forall_lookup _ _) Hnn' i Ri Hi) as [Pi HPi].
  pose proof (proj1 (Forall_lookup _ _) Hnn' j Rj Hj) as [Pj HPj].
  exists Pi, Pj. split_and!; [done|done|].
  by eapply Hinv'.
Qed.

End AfterPoundExprCompletion.

(** ** A small instance

    Types are numbered; the types [2 * k] and [2 * k + 1] are two
    spellings of one type, so that structural equality compares halves.
    A solution carries what the three queries answer for it. *)

Module Sample.

Record Sol : Type := mkSol {
  sol_type : option nat;
  sol_async : bool;
  sol_single : bool
}.

Definition structurally_equal (A : nat) (Other : option nat) : bool :=
  match Other with
  | Some B => Nat.eqb (A / 2) (B / 2)
  | None => false
  end.

Definition Collector : Type :=
  AfterPoundExprCompletion (TypeBase := nat) (Expr := unit)
    (DeclContext := unit) (StmtKind := nat).

Definition saw : Collector → Sol → exec Collector :=
  sawSolutionImpl sol_single (λ S _, sol_type S) (λ S _, sol_async S)
    (λ CS _, CS) structurally_equal.

Definition saw_all : Collector → list Sol → exec Collector :=
  sawSolutions sol_single (λ S _, sol_type S) (λ S _, sol_async S)
    (λ CS _, CS) structurally_equal.

Definition start : Collector := mkAfterPoundExprCompletion tt tt 7 [].

Definition one : Collector :=
  mkAfterPoundExprCompletion tt tt 7 [mkResult (Some 2) false true].

Definition two : Collector :=
  mkAfterPoundExprCompletion tt tt 7
    [mkResult (Some 2) false true; mkResult (Some 4) true false].

Definition idle (this : Collector) : Machine := mkMachine this [] [].

Lemma structurally_equal_sym (A B : nat) :
  structurally_equal A (Some B) = structurally_equal B (Some A).
Proof. apply Nat.eqb_sym. Qed.

Lemma structurally_equal_trans (A B C : nat) :
  structurally_equal A (Some B) = true →
  structurally_equal B (Some C) = true →
  structurally_equal A (Some C) = true.
Proof. simpl. rewrite !Nat.eqb_eq. congruence. Qed.

Example saw_all_T1_T2_T1_T3 :
  saw_all start
    [mkSol (Some 2) true false; mkSol (Some 4) false true;
     mkSol (Some 3) false true; mkSol (Some 6) false false] =
  Done (mkAfterPoundExprCompletion tt tt 7
    [mkResult (Some 2) false true; mkResult (Some 4) true false;
     mkResult (Some 6) false false]).
Proof. reflexivity. Qed.

Example saw_all_null_then_any :
  saw_all start [mkSol None true false; mkSol (Some 4) false true] =
  NullDereference.
Proof. reflexivity. Qed.

Example deliverResults_two :
  Lookup (deliverResults (idle two)).2 =
  [ shouldCheckForDuplicates true;
    setExpectedTypes [Some 2] false true; addPoundAvailable 7;
    addPoundLiteralCompletions false; addObjCPoundKeywordCompletions false;
    getMacroCompletions false;
    setExpectedTypes [Some 4] true true; addPoundAvailable 7;
    addPoundLiteralCompletions false; addObjCPoundKeywordCompletions false;
    getMacroCompletions false ].
Proof. reflexivity. Qed.

Lemma sawSolutions_T1_T2_T1_T3_witness :
  saw_all start
    [mkSol (Some 2) true false; mkSol (Some 4) false true;
     mkSol (Some 3) false true; mkSol (Some 6) false false] =
  Done (mkAfterPoundExprCompletion tt tt 7
    [mkResult (Some 2) false true; mkResult (Some 4) true false;
     mkResult (Some 6) false false]).
Proof.
  apply (sawSolutions_T1_T2_T1_T3 sol_single (λ S _, sol_type S)
           (λ S _, sol_async S) (λ CS _, CS) structurally_equal start
           (mkSol (Some 2) true false) (mkSol (Some 4) false true)
           (mkSol (Some 3) false true) (mkSol (Some 6) false false)
           2 4 3 6); reflexivity.
Defined.

Lemma sawSolutions_NoDuplicateTypes_witness :
  ∃ this', saw_all start
      [mkSol (Some 2) true false; mkSol (Some 3) false true;
       mkSol (Some 4) false true] = Done this'
    ∧ NonNullTypes (Results this')
    ∧ NoDuplicateTypes structurally_equal (Results this').
Proof.
  apply (sawSolutions_NoDuplicateTypes sol_single (λ S _, sol_type S)
           (λ S _, sol_async S) (λ CS _, CS) structurally_equal
           structurally_equal_sym start).
  - constructor.
  - apply NoDuplicateTypes_nil.
  - repeat constructor; by eexists.
Defined.

Lemma sawSolutionImpl_idempotent_witness :
  ∃ this1, saw one (mkSol (Some 4) false true) = Done this1
    ∧ saw this1 (mkSol (Some 5) true false) = Done this1
    ∧ saw_all one [mkSol (Some 4) false true; mkSol (Some 5) true false] =
      saw_all one [mkSol (Some 4) false true].
Proof.
  apply (sawSolutionImpl_idempotent sol_single (λ S _, sol_type S)
           (λ S _, sol_async S) (λ CS _, CS) structurally_equal
           structurally_equal_trans one
           (mkSol (Some 4) false true) (mkSol (Some 5) true false) 4 5).
  - repeat constructor; by eexists.
  - reflexivity.
  - reflexivity.
  - reflexivity.
Defined.

Lemma sawSolutionImpl_duplicate_unchanged_witness :
  saw two (mkSol (Some 5) true true) = Done two.
Proof.
  apply (sawSolutionImpl_duplicate_unchanged sol_single (λ S _, sol_type S)
           (λ S _, sol_async S) (λ CS _, CS) structurally_equal two
           (mkSol (Some 5) true true)).
  - repeat constructor; by eexists.
  - exists (mkResult (Some 4) true false), 4.
    split; [|split; reflexivity]. right. left.
Defined.

Lemma sawSolutions_null_safety_witness :
  (∃ this', saw_all start
       [mkSol (Some 2) true false; mkSol (Some 3) false true] = Done this'
     ∧ NonNullTypes (Results this'))
  ∧ saw start (mkSol None true false) =
      Done (mkAfterPoundExprCompletion tt tt 7
              [mkResult None false true])
  ∧ saw_all start [mkSol None true false; mkSol (Some 4) false true] =
      NullDereference.
Proof.
  apply (sawSolutions_null_safety sol_single (λ S _, sol_type S)
           (λ S _, sol_async S) (λ CS _, CS) structurally_equal start
           [mkSol (Some 2) true false; mkSol (Some 3) false true]
           (mkSol None true false) (mkSol (Some 4) false true)).
  - reflexivity.
  - repeat constructor; by eexists.
  - reflexivity.
Defined.

Lemma deliverResults_duplicate_checking_witness :
  duplicateModes (Lookup (deliverResults (idle one)).2) = [false]
  ∧ duplicateModes (Lookup (deliverResults (idle two)).2) = [true].
Proof.
  split.
  - apply (proj1 (deliverResults_duplicate_checking (idle one))). reflexivity.
  - apply (proj2 (deliverResults_duplicate_checking (idle two))). simpl. lia.
Defined.

Lemma deliverResults_no_result_witness :
  Lookup (deliverResults (idle start)).2 = [shouldCheckForDuplicates false]
  ∧ filter is_completion_request (Lookup (deliverResults (idle start)).2) = []
  ∧ expectations (Lookup (deliverResults (idle start)).2) = []
  ∧ Consumer (deliverResults (idle start)).2 =
      [] ++ [[shouldCheckForDuplicates false]].
Proof. apply (deliverResults_no_result (idle start)). reflexivity. Defined.

(** C6, as the claim has it: on an empty result list no configuration call
    would reach the engine.  The call that sets the duplicate-checking
    mode does. *)
Lemma deliverResults_no_result_configures :
  ¬ (Results (self (idle start)) = [] →
     filter is_completion_request (Lookup (deliverResults (idle start)).2) = []
     ∧ filter is_configuration (Lookup (deliverResults (idle start)).2) = []).
Proof. intros Hclaim. destruct (Hclaim eq_refl) as [_ Hnone]. discriminate Hnone. Qed.

(** *** Instances of the further properties *)

Definition sol2 : Sol := mkSol (Some 2) true false.
Definition sol3 : Sol := mkSol (Some 3) false true.
Definition sol4 : Sol := mkSol (Some 4) false true.
Definition sol6 : Sol := mkSol (Some 6) false false.

Definition entry : Collector → Sol → Result :=
  recorded sol_single (λ S _, sol_type S) (λ S _, sol_async S) (λ CS _, CS).

Definition firsts : list Sol → list Sol :=
  first_seen (λ S _, sol_type S) structurally_equal tt [].

(** [start] after the pass over [sol2], [sol4], [sol3], [sol6]. *)
Definition three : Collector :=
  mkAfterPoundExprCompletion tt tt 7
    [mkResult (Some 2) false true; mkResult (Some 4) true false;
     mkResult (Some 6) false false].

(** A list whose last entry has a null expected type. *)
Definition holed : Collector :=
  mkAfterPoundExprCompletion tt tt 7
    [mkResult (Some 2) false true; mkResult None false true].


Example firsts_T1_T2_T1_T3 : firsts [sol2; sol4; sol3; sol6] = [sol2; sol4; sol6].
Proof. reflexivity. Qed.

Lemma sawSolutions_append_only_witness :
  ∃ New, three = with_Results start (Results start ++ New)
    ∧ sublist New (entry start <$> [sol2; sol4; sol3; sol6]).
Proof.
  apply (sawSolutions_append_only sol_single (λ S _, sol_type S)
           (λ S _, sol_async S) (λ CS _, CS) structurally_equal
           start three [sol2; sol4; sol3; sol6]).
  reflexivity.
Defined.

Lemma sawSolutionImpl_fresh_appended_witness :
  saw one sol4 =
    Done (with_Results one (Results one ++ [mkResult (Some 4) true false])).
Proof.
  apply (sawSolutionImpl_fresh_appended sol_single (λ S _, sol_type S)
           (λ S _, sol_async S) (λ CS _, CS) structurally_equal one sol4).
  - repeat constructor; by eexists.
  - intros (R & P & HR & HP & HE).
    apply list_elem_of_singleton in HR. subst R.
    injection HP as <-. discriminate HE.
Defined.

Lemma sawSolutionImpl_NullDereference_iff_witness :
  saw holed sol4 = NullDereference.
Proof.
  apply (proj2 (sawSolutionImpl_NullDereference_iff sol_single
                  (λ S _, sol_type S) (λ S _, sol_async S) (λ CS _, CS)
                  structurally_equal holed sol4)).
  exists [mkResult (Some 2) false true], (mkResult None false true), [].
  split; [reflexivity|]. split; [reflexivity|].
  intros R HR. apply list_elem_of_singleton in HR. subst R.
  exists 2. split; reflexivity.
Defined.

Lemma sawSolutionImpl_first_match_witness : saw holed sol3 = Done holed.
Proof.
  apply (sawSolutionImpl_first_match sol_single (λ S _, sol_type S)
           (λ S _, sol_async S) (λ CS _, CS) structurally_equal holed sol3
           [mkResult (Some 2) false true] [mkResult None false true]).
  - reflexivity.
  - repeat constructor; by eexists.
  - exists (mkResult (Some 2) false true), 2.
    split; [left|split; reflexivity].
Defined.

Lemma sawSolutions_covers_witness :
  ∃ R, R ∈ Results three
    ∧ (ExpectedTy R = Some 3
       ∨ ∃ P, ExpectedTy R = Some P ∧ structurally_equal P (Some 3) = true).
Proof.
  apply (sawSolutions_covers sol_single (λ S _, sol_type S)
           (λ S _, sol_async S) (λ CS _, CS) structurally_equal
           start three [sol2; sol4; sol3; sol6] sol3).
  - reflexivity.
  - right. right. left.
Defined.

Lemma sawSolutions_first_seen_witness :
  saw_all start [sol2; sol4; sol3; sol6] =
    Done (with_Results start (entry start <$> firsts [sol2; sol4; sol3; sol6])).
Proof.
  apply (sawSolutions_first_seen sol_single (λ S _, sol_type S)
           (λ S _, sol_async S) (λ CS _, CS) structurally_equal
           structurally_equal_trans start [sol2; sol4; sol3; sol6]).
  - reflexivity.
  - repeat constructor; by eexists.
Defined.



Lemma sawSolutions_then_deliverResults_witness :
  ∃ this', saw_all start [sol2; sol4; sol3; sol6] = Done this'
    ∧ ∀ (L : list LookupCall) (C : list (list LookupCall)),
        Lookup (deliverResults (mkMachine this' L C)).2 =
          shouldCheckForDuplicates
            (1 <? length (firsts [sol2; sol4; sol3; sol6]))
          :: (firsts [sol2; sol4; sol3; sol6] ≫= λ S,
                [ setExpectedTypes [sol_type S] (sol_single S) true;
                  addPoundAvailable 7;
                  addPoundLiteralCompletions false;
                  addObjCPoundKeywordCompletions false;
                  getMacroCompletions false ]).
Proof.
  apply (sawSolutions_then_deliverResults sol_single (λ S _, sol_type S)
           (λ S _, sol_async S) (λ CS _, CS) structurally_equal
           structurally_equal_trans start [sol2; sol4; sol3; sol6]).
  - reflexivity.
  - repeat constructor; by eexists.
Defined.

Lemma sawSolutions_then_distinct_expectations_witness :
  ∃ this', saw_all start [sol2; sol4; sol3; sol6] = Done this'
    ∧ ∀ (L : list LookupCall) (C : list (list LookupCall))
        (i j : nat) (Ti Tj : option nat) (Fi Fj Ni Nj : bool),
        i ≠ j →
        expectations (Lookup (deliverResults (mkMachine this' L C)).2) !! i
          = Some ([Ti], Fi, Ni) →
        expectations (Lookup (deliverResults (mkMachine this' L C)).2) !! j
          = Some ([Tj], Fj, Nj) →
        ∃ Pi Pj, Ti = Some Pi ∧ Tj = Some Pj
          ∧ structurally_equal Pi (Some Pj) = false.
Proof.
  apply (sawSolutions_then_distinct_expectations sol_single
           (λ S _, sol_type S) (λ S _, sol_async S) (λ CS _, CS)
           structurally_equal structurally_equal_sym start
           [sol2; sol4; sol3; sol6]).
  - constructor.
  - apply NoDuplicateTypes_nil.
  - repeat constructor; by eexists.
Defined.

Lemma sawSolutionImpl_respects_isEqual_witness :
  (saw one sol4 = Done one ∧ saw one (mkSol (Some 5) true true) = Done one)
  ∨ (saw one sol4 = Done (push_back one (entry one sol4))
     ∧ saw one (mkSol (Some 5) true true) =
         Done (push_back one (entry one (mkSol (Some 5) true true)))).
Proof.
  apply (sawSolutionImpl_respects_isEqual sol_single (λ S _, sol_type S)
           (λ S _, sol_async S) (λ CS _, CS) structurally_equal
           structurally_equal_sym structurally_equal_trans one
           sol4 (mkSol (Some 5) true true) 4 5).
  - repeat constructor; by eexists.
  - reflexivity.
  - reflexivity.
  - reflexivity.
Defined.

End Sample.
